(** * A line-ingestion scheduler over a readline source

    Shallow embedding of [src/immediate.ts], [src/history.ts] and the
    [createCLI] factory of [src/cli.ts], with the properties of the
    session they build.  [createCLI] is taken in its form with the history
    guard and the check for [start]; the asynchronous body of [handleInput]
    is modelled both as [cli.ts] has it and as the later [handleData]. *)

From stdpp Require Import base numbers list sets strings.

Open Scope Z_scope.
Open Scope nat_scope.

(** ** [immediate.ts]: the deferred callback *)

Module Immediate.
Section Immediate.
(** [A] names the callbacks handed to [set]; a callback of this
    component never calls [set] or [clear] itself (in [cli.ts] it is
    always [() => prompt()]). *)
Context {A : Type}.

(** [timer] is the closure variable of [createImmediate]; [queue] holds
    the callbacks given to [setImmediate] that have neither run nor been
    cleared, oldest first; [next] is the next fresh handle. *)
Record t := mk {
  timer : option nat;
  queue : list (nat * A);
  next : nat
}.

Definition init : t := {| timer := None; queue := []; next := 0 |}.

(** [clearImmediate(h)]. *)
Definition unqueue (h : nat) (q : list (nat * A)) : list (nat * A) :=
  filter (λ e, e.1 ≠ h) q.

Definition clear (st : t) : t :=
  match timer st with
  | Some h => {| timer := None; queue := unqueue h (queue st); next := next st |}
  | None => st
  end.

Definition set (callback : A) (st : t) : t :=
  {| timer := Some (next st);
     queue := queue st ++ [(next st, callback)];
     next := S (next st) |}.

(** One check phase of the event loop: the immediates queued when the
    phase begins run in order, unless an earlier one cleared them.  Each
    runs [callback(); clear()]. *)
Fixpoint run (snapshot : list (nat * A)) (st : t) : t * list (nat * A) :=
  match snapshot with
  | [] => (st, [])
  | (h, callback) :: rest =>
      if decide (h ∈ (queue st).*1) then
        let st1 :=
          clear {| timer := timer st; queue := unqueue h (queue st); next := next st |} in
        let r := run rest st1 in
        (r.1, (h, callback) :: r.2)
      else run rest st
  end.

Definition tick (st : t) : t * list (nat * A) := run (queue st) st.

(** Handles are handed out once. *)
Definition wf (st : t) : Prop :=
  NoDup (queue st).*1 ∧ ∀ h, h ∈ (queue st).*1 → h < next st.
End Immediate.
Arguments t : clear implicits.
End Immediate.

(** ** [history.ts]: the guard of the recall buffer *)

Module History.
(** [history] is the array the guard is bound to ([None] when what the
    source exposes is not an array); the guard and the source share it. *)
Record t := mk {
  history : option (list string);
  lockLength : Z
}.

Definition createHistory (history : option (list string)) : t :=
  {| history := history; lockLength := -1 |}.

Definition set (newHistory : list string) (st : t) : t :=
  {| history := Some newHistory; lockLength := lockLength st |}.

Definition lock (st : t) : t :=
  {| history := history st;
     lockLength := match history st with
                   | Some h => Z.of_nat (length h)
                   | None => -1
                   end |}.

Definition unlock (st : t) : t :=
  {| history := history st; lockLength := -1 |}.

(** [history.splice(0, Math.abs(history.length - lockLength))]. *)
Definition restore (st : t) : t :=
  match history st with
  | Some h =>
      if bool_decide (-1 < lockLength st)%Z then
        {| history := Some (drop (Z.to_nat (Z.abs (Z.of_nat (length h) - lockLength st))) h);
           lockLength := lockLength st |}
      else st
  | None => st
  end.

Definition clear (st : t) : t :=
  match history st with
  | Some _ => {| history := Some []; lockLength := lockLength st |}
  | None => st
  end.

(** The source side of the shared array: readline puts each new entry in
    front ([unshift]). *)
Definition unshift (added : list string) (st : t) : t :=
  match history st with
  | Some h => {| history := Some (added ++ h); lockLength := lockLength st |}
  | None => st
  end.
End History.

(** ** [cli.ts]: the session built by [createCLI] *)

(** The body of [handleInput] exists in two forms: the one of [cli.ts],
    which awaits [Promise.all] inside one [try]/[catch]/[finally], and the
    later one ([handleData]), which wraps every data listener in its own
    [try]/[catch] and attaches the cleanup with [.finally]. *)
Inductive Variant := SingleCatch | CatchEach.

Definition Err := string.
Definition Value := string.

(** What awaiting a promise (or a plain value) gives. *)
Inductive Settled (A : Type) :=
| Fulfilled (a : A)
| Rejected (e : Err)
| Never.
Arguments Fulfilled {A} a.
Arguments Rejected {A} e.
Arguments Never {A}.

(** What calling caller code gives: an exception, or a value or promise. *)
Inductive Call (A : Type) :=
| Throws (e : Err)
| Returns (p : Settled A).
Arguments Throws {A} e.
Arguments Returns {A} p.

(** The caller's code.  Listeners are known by number (their identity as
    functions).  A data listener may begin with [cli.ignore()], the use the
    README documents; an error listener returns or throws.  Any other call
    a listener makes on the session is an event of its own. *)
Record Env := {
  variant : Variant;
  parser : option (string → Call Value);
  dataListener : nat → Value → Call unit;
  ignores : nat → bool;
  errorListener : nat → Err → option Err
}.

Inductive EventName := data_ | error_.

Inductive ErrorListener := errorHandler | custom (listener : nat).

Global Instance ErrorListener_eq_dec : EqDecision ErrorListener.
Proof. solve_decision. Defined.

(** Calls made on the readline interface. *)
Inductive RlCall := Pause | Resume | Prompt | RemoveAllListeners.

Global Instance RlCall_eq_dec : EqDecision RlCall.
Proof. solve_decision. Defined.

(** Listener invocations. *)
Inductive Fired :=
| FData (listener : nat) (value : Value)
| FError (listener : ErrorListener) (error : Err).

(** The one callback given to [immediate.set]: [() => prompt()]. *)
Inductive Callback := CallPrompt.

(** A wrapped data listener of the later variant: either its wrapper has
    already settled, or it waits for the listener's promise. *)
Inductive Wrapper :=
| Done (r : Settled unit)
| Waiting (p : Settled unit).

(** An asynchronous body suspended at an [await]. *)
Inductive Job :=
| AwaitParser (p : Settled Value)
| AwaitAll (ps : list (Settled unit))
| AwaitEach (ws : list Wrapper)
| AwaitFinally (escaped : option Err).

Record Session := mkSession {
  started : bool;
  closed : bool;
  isIgnoring : bool;
  didSetError : bool;
  dataListeners : list nat;
  errorListeners : list ErrorListener;
  immediate : Immediate.t Callback;
  history : History.t;
  (** the source still has the listeners of [createCLI] attached *)
  attached : bool;
  (** calls made on the source, oldest first *)
  calls : list RlCall;
  (** suspended bodies *)
  pending : list Job;
  (** listener invocations, oldest first *)
  fired : list Fired;
  (** rejections nobody handles *)
  unhandled : list Err
}.

Definition set_started (v : bool) (s : Session) : Session :=
  mkSession v (closed s) (isIgnoring s) (didSetError s) (dataListeners s)
    (errorListeners s) (immediate s) (history s) (attached s) (calls s)
    (pending s) (fired s) (unhandled s).

Definition set_isIgnoring (v : bool) (s : Session) : Session :=
  mkSession (started s) (closed s) v (didSetError s) (dataListeners s)
    (errorListeners s) (immediate s) (history s) (attached s) (calls s)
    (pending s) (fired s) (unhandled s).

Definition set_registry (d : bool) (dl : list nat) (el : list ErrorListener)
    (s : Session) : Session :=
  mkSession (started s) (closed s) (isIgnoring s) d dl el (immediate s)
    (history s) (attached s) (calls s) (pending s) (fired s) (unhandled s).

Definition upd_immediate (f : Immediate.t Callback → Immediate.t Callback)
    (s : Session) : Session :=
  mkSession (started s) (closed s) (isIgnoring s) (didSetError s)
    (dataListeners s) (errorListeners s) (f (immediate s)) (history s)
    (attached s) (calls s) (pending s) (fired s) (unhandled s).

Definition upd_history (f : History.t → History.t) (s : Session) : Session :=
  mkSession (started s) (closed s) (isIgnoring s) (didSetError s)
    (dataListeners s) (errorListeners s) (immediate s) (f (history s))
    (attached s) (calls s) (pending s) (fired s) (unhandled s).

Definition rl_call (c : RlCall) (s : Session) : Session :=
  mkSession (started s) (closed s) (isIgnoring s) (didSetError s)
    (dataListeners s) (errorListeners s) (immediate s) (history s)
    (attached s) (calls s ++ [c]) (pending s) (fired s) (unhandled s).

Definition set_pending (js : list Job) (s : Session) : Session :=
  mkSession (started s) (closed s) (isIgnoring s) (didSetError s)
    (dataListeners s) (errorListeners s) (immediate s) (history s)
    (attached s) (calls s) js (fired s) (unhandled s).

Definition log_fired (f : Fired) (s : Session) : Session :=
  mkSession (started s) (closed s) (isIgnoring s) (didSetError s)
    (dataListeners s) (errorListeners s) (immediate s) (history s)
    (attached s) (calls s) (pending s) (fired s ++ [f]) (unhandled s).

(** A rejected promise without a handler. *)
Definition escape (e : option Err) (s : Session) : Session :=
  mkSession (started s) (closed s) (isIgnoring s) (didSetError s)
    (dataListeners s) (errorListeners s) (immediate s) (history s)
    (attached s) (calls s) (pending s) (fired s)
    (unhandled s ++ match e with Some e' => [e'] | None => [] end).

(** The errors of promises that are rejected. *)
Definition rejections (ps : list (Settled unit)) : list Err :=
  omap (λ p, match p with
             | Rejected e => Some e
             | _ => None
             end) ps.

(** Promises nobody waits for: their rejections stay unhandled. *)
Definition abandon (ps : list (Settled unit)) (s : Session) : Session :=
  mkSession (started s) (closed s) (isIgnoring s) (didSetError s)
    (dataListeners s) (errorListeners s) (immediate s) (history s)
    (attached s) (calls s) (pending s) (fired s)
    (unhandled s ++ rejections ps).

(** The [close] handler of [createCLI]. *)
Definition on_close (s : Session) : Session :=
  mkSession (started s) true false false [] [errorHandler] (immediate s)
    (History.clear (history s)) false (calls s ++ [RemoveAllListeners])
    (pending s) (fired s) (unhandled s).

Definition startError : Err := "Input not accepted without calling `start()`".

Definition resume (s : Session) : Session :=
  if closed s then s else rl_call Resume s.

Definition prompt (s : Session) : Session :=
  if closed s then s else rl_call Prompt s.

Definition ignore (value : bool) (s : Session) : Session :=
  let s1 := set_isIgnoring value s in
  if isIgnoring s1 then resume (upd_history History.lock s1)
  else upd_history History.unlock s1.

(** [listeners.indexOf(listener)], [None] for [-1]. *)
Fixpoint indexOf {A} `{EqDecision A} (x : A) (l : list A) : option nat :=
  match l with
  | [] => None
  | y :: l' => if decide (x = y) then Some 0 else S <$> indexOf x l'
  end.

(** [if (index > -1) listeners.splice(index, 1)]. *)
Definition splice_found {A} `{EqDecision A} (x : A) (l : list A) : list A :=
  match indexOf x l with
  | Some index => delete index l
  | None => l
  end.

Definition on (event : EventName) (listener : nat) (s : Session) : Session :=
  let s1 :=
    match event with
    | error_ =>
        if didSetError s then s
        else set_registry true (dataListeners s) (removelast (errorListeners s)) s
    | data_ => s
    end in
  match event with
  | data_ =>
      set_registry (didSetError s1) (dataListeners s1 ++ [listener]) (errorListeners s1) s1
  | error_ =>
      set_registry (didSetError s1) (dataListeners s1) (errorListeners s1 ++ [custom listener]) s1
  end.

Definition off (event : EventName) (listener : nat) (s : Session) : Session :=
  match event with
  | data_ =>
      set_registry (didSetError s) (splice_found listener (dataListeners s))
        (errorListeners s) s
  | error_ =>
      let listeners := splice_found (custom listener) (errorListeners s) in
      if decide (length listeners = 0) then
        set_registry false (dataListeners s) (listeners ++ [errorHandler]) s
      else set_registry (didSetError s) (dataListeners s) listeners s
  end.

(** [Promise.all]: rejected by the first rejection, fulfilled when all
    are, pending otherwise.  Promises carry no time here: they are taken to
    settle in the order of the list, so that the first rejection in the
    list stands for the first in time. *)
Fixpoint promise_all (ps : list (Settled unit)) : Settled unit :=
  match ps with
  | [] => Fulfilled ()
  | Rejected e :: _ => Rejected e
  | Fulfilled _ :: ps' => promise_all ps'
  | Never :: ps' =>
      match promise_all ps' with
      | Rejected e => Rejected e
      | _ => Never
      end
  end.

Definition wrapper_result (w : Wrapper) : Settled unit :=
  match w with
  | Done r => r
  | Waiting p => p
  end.

Section Scheduler.
Context (env : Env).

(** [errorListeners.forEach(listener => listener(error))]: stops at the
    first listener that throws; the default handler always does. *)
Fixpoint notify (listeners : list ErrorListener) (error : Err) (s : Session)
    : Session * option Err :=
  match listeners with
  | [] => (s, None)
  | listener :: rest =>
      let s1 := log_fired (FError listener error) s in
      match listener with
      | errorHandler => (s1, Some error)
      | custom n =>
          match errorListener env n error with
          | Some thrown => (s1, Some thrown)
          | None => notify rest error s1
          end
      end
  end.

Definition notifyError (error : Err) (s : Session) : Session * option Err :=
  notify (errorListeners s) error s.

(** The [finally] block: [ignore(false); resume(); immediate.set(() => prompt())]. *)
Definition finally (s : Session) : Session :=
  upd_immediate (Immediate.set CallPrompt) (resume (ignore false s)).

(** [catch] then [finally] of the body in [cli.ts]; what an error listener
    throws leaves the body as an unhandled rejection. *)
Definition catch_finally (error : Err) (s : Session) : Session :=
  let r := notifyError error s in
  escape r.2 (finally r.1).

(** One data listener is called. *)
Definition invoke (listener : nat) (value : Value) (s : Session) : Session :=
  let s1 := log_fired (FData listener value) s in
  if ignores env listener then ignore true s1 else s1.

(** [dataListeners.map(listener => listener(value))] of [cli.ts]: an
    exception leaves the [map], and with it the promises the listeners
    before returned are dropped ([inl]); otherwise the promises go to
    [Promise.all] ([inr]). *)
Fixpoint fanout (listeners : list nat) (value : Value) (s : Session)
    : Session * (Err * list (Settled unit) + list (Settled unit)) :=
  match listeners with
  | [] => (s, inr [])
  | listener :: rest =>
      let s1 := invoke listener value s in
      match dataListener env listener value with
      | Throws e => (s1, inl (e, []))
      | Returns p =>
          let r := fanout rest value s1 in
          (r.1, match r.2 with
                | inl (e, dropped) => inl (e, p :: dropped)
                | inr ps => inr (p :: ps)
                end)
      end
  end.

(** [dataListeners.map(async listener => { try { await listener(parsed) }
    catch (error) { ... } })] of the later variant: an exception is
    caught at once and handed to the error listeners. *)
Fixpoint fanout_each (listeners : list nat) (value : Value) (s : Session)
    : Session * list Wrapper :=
  match listeners with
  | [] => (s, [])
  | listener :: rest =>
      let s1 := invoke listener value s in
      match dataListener env listener value with
      | Throws e =>
          let n := notifyError e s1 in
          let r := fanout_each rest value n.1 in
          (r.1, Done (match n.2 with
                      | Some thrown => Rejected thrown
                      | None => Fulfilled ()
                      end) :: r.2)
      | Returns p =>
          let r := fanout_each rest value s1 in
          (r.1, Waiting p :: r.2)
      end
  end.

(** The listeners' promises settle; each rejection is caught by its own
    wrapper (taken here in registration order). *)
Fixpoint settle_each (ws : list Wrapper) (s : Session) : Session * list Wrapper :=
  match ws with
  | [] => (s, [])
  | Waiting (Rejected e) :: rest =>
      let n := notifyError e s in
      let r := settle_each rest n.1 in
      (r.1, Done (match n.2 with
                  | Some thrown => Rejected thrown
                  | None => Fulfilled ()
                  end) :: r.2)
  | w :: rest =>
      let r := settle_each rest s in
      (r.1, Done (wrapper_result w) :: r.2)
  end.

(** From the parsed value on. *)
Definition after_value (value : Value) (s : Session) : Session * option Job :=
  match variant env with
  | SingleCatch =>
      let r := fanout (dataListeners s) value s in
      match r.2 with
      | inl (e, dropped) => (catch_finally e (abandon dropped r.1), None)
      | inr ps => (r.1, Some (AwaitAll ps))
      end
  | CatchEach =>
      let r := fanout_each (dataListeners s) value s in
      (r.1, Some (AwaitEach r.2))
  end.

(** A failed parse. *)
Definition parse_failed (error : Err) (s : Session) : Session * option Job :=
  match variant env with
  | SingleCatch => (catch_finally error s, None)
  | CatchEach =>
      let n := notifyError error s in
      (n.1, Some (AwaitFinally n.2))
  end.

(** The asynchronous body up to its first [await]. *)
Definition async_body (isParsed : bool) (input : string) (s : Session)
    : Session * option Job :=
  match (if isParsed then None else parser env) with
  | Some parse =>
      match parse input with
      | Throws e => parse_failed e s
      | Returns p => (s, Some (AwaitParser p))
      end
  | None => after_value input s
  end.

(** A suspended body goes on; [Some] when it is suspended again. *)
Definition settle_job (j : Job) (s : Session) : Session * option Job :=
  match j with
  | AwaitParser (Fulfilled value) => after_value value s
  | AwaitParser (Rejected e) => parse_failed e s
  | AwaitParser Never => (s, Some j)
  | AwaitAll ps =>
      match promise_all ps with
      | Fulfilled _ => (finally s, None)
      | Rejected e => (catch_finally e s, None)
      | Never => (s, Some j)
      end
  | AwaitEach ws =>
      let r := settle_each ws s in
      match promise_all (wrapper_result <$> r.2) with
      | Fulfilled _ => (r.1, Some (AwaitFinally None))
      | Rejected e => (r.1, Some (AwaitFinally (Some e)))
      | Never => (r.1, Some (AwaitEach r.2))
      end
  | AwaitFinally escaped => (escape escaped (finally s), None)
  end.

Definition spawn (r : Session * option Job) : Session :=
  match r.2 with
  | Some j => set_pending (pending r.1 ++ [j]) r.1
  | None => r.1
  end.

Definition handleInput (isParsed : bool) (input : string) (throwStartError : bool)
    (s : Session) : Session * option Err :=
  if throwStartError && negb (started s) then (s, Some startError)
  else
    let s1 := upd_immediate Immediate.clear s in
    if isIgnoring s1 then (upd_history History.restore s1, None)
    else (spawn (async_body isParsed input (rl_call Pause s1)), None).

Definition data (value : Value) (s : Session) : Session * option Err :=
  handleInput true value true s.

Definition input (text : string) (s : Session) : Session * option Err :=
  handleInput false text true s.

(** [start()] and [start(isParsed, payload)]. *)
Definition start (args : option (bool * string)) (s : Session) : Session :=
  if started s then s
  else
    let s1 := ignore false (set_started true s) in
    match args with
    | Some (isParsed, payload) => (handleInput isParsed payload false s1).1
    | None => prompt s1
    end.

(** The suspended body number [k] goes on. *)
Definition settle (k : nat) (s : Session) : Session :=
  match pending s !! k with
  | Some j =>
      let r := settle_job j s in
      match r.2 with
      | Some j' => set_pending (<[k:=j']> (pending r.1)) r.1
      | None => set_pending (delete k (pending r.1)) r.1
      end
  | None => s
  end.

(** The check phase: every callback that runs is [prompt()]. *)
Definition check (s : Session) : Session :=
  let r := Immediate.tick (immediate s) in
  foldr (λ _ acc, prompt acc) (upd_immediate (λ _, r.1) s) r.2.

(** What happens to a session: calls of the caller, events of the source,
    and the event loop going on. *)
Inductive Event :=
| Start (args : option (bool * string))
| Data (value : Value)
| Input (text : string)
| CallPromptNow
| Ignore (value : bool)
| On (event : EventName) (listener : nat)
| Off (event : EventName) (listener : nat)
| Line (text : string)
| HistoryChanged (value : list string)
| Close
| Settle (k : nat)
| CheckPhase.

Definition step (s : Session) (ev : Event) : Session :=
  match ev with
  | Start args => start args s
  | Data value => (data value s).1
  | Input text => (input text s).1
  | CallPromptNow => prompt s
  | Ignore value => ignore value s
  | On event listener => on event listener s
  | Off event listener => off event listener s
  | Line text => if attached s then (handleInput false text false s).1 else s
  | HistoryChanged value =>
      if attached s then upd_history (History.set value) s else s
  | Close => if attached s then on_close s else s
  | Settle k => settle k s
  | CheckPhase => check s
  end.

Definition run (s : Session) (evs : list Event) : Session := foldl step s evs.
End Scheduler.

(** [createCLI(options)]; [rl_history] is [options.rl.history], and
    [options.parser] is in [Env].  Its last action is [cli.ignore()]. *)
Definition createCLI (rl_history : option (list string)) : Session :=
  ignore true
    {| started := false; closed := false; isIgnoring := false; didSetError := false;
       dataListeners := []; errorListeners := [errorHandler];
       immediate := Immediate.init; history := History.createHistory rl_history;
       attached := true; calls := []; pending := []; fired := []; unhandled := [] |}.

(** * Vocabulary of the properties *)

(** The part of a session only [start], [on], [off] and the [close]
    handler write. *)
Definition static (s : Session)
    : bool * bool * bool * list nat * list ErrorListener * bool :=
  (started s, closed s, didSetError s, dataListeners s, errorListeners s, attached s).

(** An invocation of the default handler. *)
Definition default_fired (f : Fired) : Prop := ∃ e, f = FError errorHandler e.

(** [s'] comes from [s] by handler code: the static part is kept, a closed
    source is at most paused, and with only the default handler registered
    nothing but that handler is invoked. *)
Definition frame (s s' : Session) : Prop :=
  static s' = static s ∧
  (closed s = true →
   ∃ extra, calls s' = calls s ++ extra ∧ Forall (λ c, c = Pause) extra) ∧
  (dataListeners s = [] → errorListeners s = [errorHandler] →
   ∃ extra, fired s' = fired s ++ extra ∧ Forall default_fired extra).

(** Events that leave the static part alone. *)
Definition handler_event (ev : Event) : bool :=
  match ev with
  | Start _ | On _ _ | Off _ _ | Close => false
  | _ => true
  end.

(** The default handler is the only error listener until [on] replaces it;
    after that only the caller's listeners are registered. *)
Definition default_iff_no_custom (s : Session) : Prop :=
  (didSetError s = false ∧ errorListeners s = [errorHandler]) ∨
  (didSetError s = true ∧ errorListeners s ≠ [] ∧
   Forall (λ l, l ≠ errorHandler) (errorListeners s)).

(** The slots of the error listeners the default handler fills. *)
Definition default_slots (s : Session) : nat :=
  length (filter (λ l, l = errorHandler) (errorListeners s)).

(** The error listeners the caller registered. *)
Definition customs (s : Session) : list ErrorListener :=
  filter (λ l, l ≠ errorHandler) (errorListeners s).

(** A call of [start]. *)
Definition is_start (ev : Event) : bool :=
  match ev with
  | Start _ => true
  | _ => false
  end.

(** No parser; every listener returns. *)
Definition quiet_env : Env :=
  {| variant := SingleCatch; parser := None;
     dataListener := λ _ _, Returns (Fulfilled ());
     ignores := λ _, false;
     errorListener := λ _ _, None |}.

(** How an item reaches [handleInput] past its first check: as a line of
    the source while the listeners are attached, or through [data] or
    [input] once [start] has been called. *)
Definition arrives (s : Session) (ev : Event) : Prop :=
  match ev with
  | Line _ => attached s = true
  | Data _ | Input _ => started s = true
  | _ => False
  end.

(** A session that is not started and suppresses, with a prompt scheduled:
    [ignore(false)], a line (processed, no listener), [ignore()]. *)
Definition suppressed_before_start : Session :=
  run quiet_env (createCLI (Some [])) [Ignore false; Line "a"; Settle 0; Ignore true].

(** A started session that suppresses, with two prompts scheduled: two
    values given to [data] one after the other, both bodies ended, then
    [ignore()]. *)
Definition suppressed_with_two_prompts : Session :=
  run quiet_env (createCLI (Some []))
    [Start None; Data "a"; Data "b"; Settle 0; Settle 0; Ignore true].

(** The state the [finally] block leaves: not suppressing, history
    unlocked, the source (unless closed) resumed last, a prompt scheduled. *)
Definition cleaned_up (s : Session) : Prop :=
  isIgnoring s = false ∧
  History.lockLength (history s) = (-1)%Z ∧
  (closed s = false → last (calls s) = Some Resume) ∧
  ∃ h, Immediate.timer (immediate s) = Some h ∧
       (h, CallPrompt) ∈ Immediate.queue (immediate s).

(** No promise of the caller's code stays pending for ever. *)
Definition settles (env : Env) : Prop :=
  (∀ parse text, parser env = Some parse → parse text ≠ Returns Never) ∧
  (∀ listener value, dataListener env listener value ≠ Returns Never).

(** Listener 1 throws; every other data listener returns. *)
Definition failing_env (v : Variant) : Env :=
  {| variant := v; parser := None;
     dataListener := λ n _, if decide (n = 1) then Throws "boom" else Returns (Fulfilled ());
     ignores := λ _, false;
     errorListener := λ _ _, None |}.

(** A call of [on]. *)
Definition is_on (ev : Event) : bool :=
  match ev with
  | On _ _ => true
  | _ => false
  end.

(** Calls on the source after a point: only [pause]. *)
Definition only_pauses (before after : list RlCall) : Prop :=
  ∃ extra, after = before ++ extra ∧ Forall (λ c, c = Pause) extra.

(** Invocations after a point: only of the default handler. *)
Definition only_default (before after : list Fired) : Prop :=
  ∃ extra, after = before ++ extra ∧ Forall default_fired extra.

(** The registry as the [close] handler leaves it. *)
Definition unregistered (s : Session) : Prop :=
  dataListeners s = [] ∧ errorListeners s = [errorHandler].

(** Events that do not end the suppression [createCLI] begins with. *)
Definition keeps_suppressed (ev : Event) : bool :=
  match ev with
  | Start _ | Ignore false | Close => false
  | _ => true
  end.

(** What holds of a session from [createCLI] until [start],
    [ignore(false)] or the close event. *)
Definition suppressed_since_creation (bound : bool) (s : Session) : Prop :=
  started s = false ∧
  isIgnoring s = true ∧
  pending s = [] ∧
  fired s = [] ∧
  (Pause ∉ calls s) ∧
  (bound = true →
   is_Some (History.history (history s)) ∧ (-1 < History.lockLength (history s))%Z).

(** The data listeners called, in order. *)
Definition data_calls (fs : list Fired) : list (nat * Value) :=
  omap (λ f, match f with
             | FData listener value => Some (listener, value)
             | FError _ _ => None
             end) fs.

(** Two listeners that reject. *)
Definition rejecting_env (v : Variant) : Env :=
  {| variant := v; parser := None;
     dataListener := λ n _,
       Returns (Rejected (if decide (n = 1) then "first" else "second"));
     ignores := λ _, false;
     errorListener := λ _ _, None |}.

(** Two data listeners and one error listener, started. *)
Definition two_listeners (env : Env) : Session :=
  run env (createCLI (Some [])) [On data_ 1; On data_ 2; On error_ 7; Start None].

Section Process.
Context (env : Env).

(** The body of one accepted item run to its end, nothing else happening
    in between; [None] when it is still suspended after [fuel] awaits. *)
Fixpoint complete (fuel : nat) (r : Session * option Job) : option Session :=
  match r.2 with
  | None => Some r.1
  | Some j =>
      match fuel with
      | 0 => None
      | S fuel' => complete fuel' (settle_job env j r.1)
      end
  end.

(** What [handleInput] does with an item it accepts, to the end. *)
Definition process (isParsed : bool) (text : string) (s : Session) : option Session :=
  complete 3
    (async_body env isParsed text (rl_call Pause (upd_immediate Immediate.clear s))).
End Process.

(** * Properties *)

(** ** Facts about the deferred callback *)

Section ImmediateFacts.
Context {A : Type}.
Implicit Types (st : Immediate.t A) (q : list (nat * A)).

Lemma unqueue_handles h q : (Immediate.unqueue h q).*1 = filter (λ k, k ≠ h) q.*1.
Proof.
  induction q as [|[k c] q IH]; [done|].
  unfold Immediate.unqueue in *. rewrite fmap_cons. simpl fst.
  rewrite !filter_cons. simpl.
  destruct (decide (k ≠ h)); [rewrite fmap_cons; by f_equal | done].
Qed.

Lemma unqueue_elem h k q :
  k ∈ (Immediate.unqueue h q).*1 ↔ k ≠ h ∧ k ∈ q.*1.
Proof. rewrite unqueue_handles. apply (list_elem_of_filter (λ x, x ≠ h)). Qed.

Lemma wf_init : Immediate.wf (@Immediate.init A).
Proof. split; [constructor | by intros h ?%elem_of_nil]. Qed.

Lemma wf_set c st : Immediate.wf st → Immediate.wf (Immediate.set c st).
Proof.
  intros [Hnd Hlt]. split; simpl; rewrite fmap_app; simpl.
  - apply NoDup_app. split_and!; [done | | apply NoDup_singleton].
    intros h Hh Hh'. apply list_elem_of_singleton in Hh'. subst.
    apply Hlt in Hh. lia.
  - intros h [Hh|Hh]%elem_of_app; [apply Hlt in Hh; lia|].
    apply list_elem_of_singleton in Hh. lia.
Qed.

Lemma wf_clear st : Immediate.wf st → Immediate.wf (Immediate.clear st).
Proof.
  intros [Hnd Hlt]. unfold Immediate.clear. destruct (Immediate.timer st); [|done].
  split; simpl.
  - rewrite unqueue_handles. by apply NoDup_filter.
  - intros k [_ Hk]%unqueue_elem. by apply Hlt.
Qed.

(** What runs in a phase was queued when the phase began. *)
Lemma run_fired_sublist snapshot st :
  sublist (Immediate.run snapshot st).2 snapshot.
Proof.
  revert st. induction snapshot as [|[h c] rest IH]; intros st; simpl; [done|].
  destruct (decide _); simpl.
  - by apply sublist_skip.
  - by apply sublist_cons.
Qed.

(** ... and was still queued at its turn. *)
Lemma run_fired_queued snapshot st e :
  e ∈ (Immediate.run snapshot st).2 → e.1 ∈ (Immediate.queue st).*1.
Proof.
  revert st. induction snapshot as [|[h c] rest IH]; intros st; simpl; [by intros ?%elem_of_nil|].
  destruct (decide _) as [Hin|Hout]; simpl.
  - intros [->|He]%elem_of_cons; [done|].
    apply IH in He. unfold Immediate.clear in He. simpl in He.
    destruct (Immediate.timer st); simpl in He.
    + apply unqueue_elem in He as [_ He]. by apply unqueue_elem in He as [_ He].
    + by apply unqueue_elem in He as [_ He].
  - apply IH.
Qed.

Lemma run_fired_NoDup snapshot st :
  NoDup snapshot.*1 → NoDup (Immediate.run snapshot st).2.*1.
Proof.
  intros Hnd. eapply sublist_NoDup; [exact Hnd | apply fmap_sublist, run_fired_sublist].
Qed.

(** A queued callback that [timer] does not point at always runs. *)
Lemma run_untracked_fires snapshot st h c :
  NoDup snapshot.*1 →
  (h, c) ∈ snapshot →
  h ∈ (Immediate.queue st).*1 →
  Immediate.timer st ≠ Some h →
  (h, c) ∈ (Immediate.run snapshot st).2.
Proof.
  revert st. induction snapshot as [|[k d] rest IH]; intros st Hnd Hin Hq Ht; [by apply elem_of_nil in Hin|].
  rewrite fmap_cons in Hnd. simpl in Hnd. apply NoDup_cons in Hnd as [Hk Hnd].
  simpl. apply elem_of_cons in Hin as [Heq|Hin].
  - inversion Heq; subst. rewrite decide_True by done. simpl. apply list_elem_of_here.
  - assert (h ≠ k) as Hne.
    { intros ->. apply Hk. apply list_elem_of_fmap. by exists (k, c). }
    destruct (decide _) as [Hkq|Hkq]; simpl; [|by apply IH].
    apply elem_of_cons. right. apply IH; [done..| |].
    + unfold Immediate.clear. simpl. destruct (Immediate.timer st) as [t0|] eqn:Et; simpl.
      * apply unqueue_elem. split; [congruence|]. by apply unqueue_elem.
      * by apply unqueue_elem.
    + unfold Immediate.clear. simpl. by destruct (Immediate.timer st).
Qed.
End ImmediateFacts.

(** ** The deferred callback: the claim *)

Section ImmediateClaims.
Context {A : Type}.
Implicit Types (st : Immediate.t A).

Lemma filter_handle_absent (h : nat) (l : list (nat * A)) :
  h ∉ l.*1 → filter (λ e, e.1 = h) l = [].
Proof.
  induction l as [|[k c] l IH]; intros Hh; [done|].
  rewrite fmap_cons in Hh. apply not_elem_of_cons in Hh as [Hne Hh].
  rewrite filter_cons. simpl in *. rewrite decide_False by congruence. by apply IH.
Qed.

Lemma at_most_one_with_handle (h : nat) (l : list (nat * A)) :
  NoDup l.*1 → length (filter (λ e, e.1 = h) l) ≤ 1.
Proof.
  induction l as [|[k c] l IH]; intros Hnd; [simpl; lia|].
  rewrite fmap_cons in Hnd. apply NoDup_cons in Hnd as [Hk Hnd].
  rewrite filter_cons. simpl in *. destruct (decide (k = h)) as [->|]; [|by apply IH].
  rewrite filter_handle_absent by done. simpl. lia.
Qed.

Lemma tick_fired_NoDup st : Immediate.wf st → NoDup (Immediate.tick st).2.*1.
Proof. intros [Hnd _]. by apply run_fired_NoDup. Qed.
End ImmediateClaims.

(** C1, as the code has it.  [set] does not cancel what was scheduled
    before: after [set f; set g] the callback [f] still runs at the next
    check phase.  [f] is cancelled by a [clear] between the two calls, and
    then, with nothing else pending, [g] runs exactly once.  In every case
    the most recently scheduled callback runs 0 or 1 times in a phase. *)
Theorem set_does_not_cancel_earlier {A} (st : Immediate.t A) (f g : A) :
  Immediate.wf st →
  (Immediate.next st, f) ∈ (Immediate.tick (Immediate.set g (Immediate.set f st))).2 ∧
  ¬ ((Immediate.next st, f) ∈
     (Immediate.tick (Immediate.set g (Immediate.clear (Immediate.set f st)))).2) ∧
  (Immediate.queue st = [] →
   (Immediate.tick (Immediate.set g (Immediate.clear (Immediate.set f st)))).2
   = [(S (Immediate.next st), g)]) ∧
  length (filter (λ e, e.1 = Immediate.next st) (Immediate.tick (Immediate.set g st)).2) ≤ 1.
Proof.
  intros Hwf. split_and!.
  - unfold Immediate.tick. apply run_untracked_fires.
    + apply (wf_set g), (wf_set f), Hwf.
    + simpl. rewrite !elem_of_app, list_elem_of_singleton. auto.
    + simpl. rewrite !fmap_app, !elem_of_app. simpl.
      rewrite list_elem_of_singleton. auto.
    + simpl. intros [=]. lia.
  - intros Hin. apply run_fired_queued in Hin. simpl in Hin.
    rewrite fmap_app, elem_of_app in Hin. simpl in Hin.
    destruct Hin as [Hin|Hin].
    + apply unqueue_elem in Hin as [Hne _]. done.
    + apply list_elem_of_singleton in Hin. lia.
  - intros Hq. unfold Immediate.tick, Immediate.set, Immediate.clear. simpl.
    rewrite Hq. simpl. unfold Immediate.unqueue. rewrite filter_cons. simpl.
    rewrite decide_False by (intros Hn; by apply Hn). simpl.
    rewrite decide_True by apply list_elem_of_here. reflexivity.
  - apply at_most_one_with_handle, tick_fired_NoDup, wf_set, Hwf.
Qed.

Lemma set_does_not_cancel_earlier_witness :
  (0, "f"%string) ∈ (Immediate.tick (Immediate.set "g"%string
                       (Immediate.set "f"%string Immediate.init))).2.
Proof.
  apply (set_does_not_cancel_earlier Immediate.init "f"%string "g"%string).
  split; [constructor | intros h Hh; inversion Hh].
Defined.

(** C1 as stated fails: after [set f; set g] with no [clear] between, the
    check phase runs [f], and [g] does not run. *)
Lemma set_twice_runs_the_first :
  (Immediate.tick (Immediate.set "g"%string
     (Immediate.set "f"%string Immediate.init))).2 = [(0, "f"%string)].
Proof. reflexivity. Qed.

(** ** The history guard *)

(** C3.  A locked guard whose array has not shrunk below the watermark:
    [restore] removes the entries in front (where the source puts new
    ones) and leaves as many as the watermark; what was added since [lock]
    is removed exactly.  Without a lock or without an array [restore]
    changes nothing. *)
Theorem restore_to_watermark (st : History.t) :
  (∀ h, History.history st = Some h →
        (-1 < History.lockLength st ≤ Z.of_nat (length h))%Z →
        ∃ added kept,
          h = added ++ kept ∧
          Z.of_nat (length added) = (Z.of_nat (length h) - History.lockLength st)%Z ∧
          Z.of_nat (length kept) = History.lockLength st ∧
          History.restore st
          = {| History.history := Some kept; History.lockLength := History.lockLength st |}) ∧
  (∀ old added, History.history st = Some old →
        History.restore (History.unshift added (History.lock st)) = History.lock st) ∧
  (History.lockLength st = (-1)%Z ∨ History.history st = None → History.restore st = st).
Proof.
  split_and!.
  - intros h Hh [Hlo Hhi].
    set (n := Z.to_nat (Z.abs (Z.of_nat (length h) - History.lockLength st))).
    exists (take n h), (drop n h).
    assert (n ≤ length h) as Hn by (unfold n; lia).
    split_and!.
    + by rewrite take_drop.
    + rewrite length_take. unfold n. lia.
    + rewrite length_drop. unfold n. lia.
    + unfold History.restore. rewrite Hh.
      rewrite bool_decide_eq_true_2 by done. reflexivity.
  - intros old added Hold. unfold History.restore, History.unshift, History.lock.
    simpl. rewrite Hold. simpl.
    rewrite bool_decide_eq_true_2 by lia. f_equal. f_equal.
    rewrite length_app.
    replace (Z.to_nat _) with (length added) by lia.
    by rewrite drop_app_length.
  - intros [Hl|Hn]; unfold History.restore.
    + destruct (History.history st); [|done].
      rewrite bool_decide_eq_false_2; [done | lia].
    + by rewrite Hn.
Qed.

Lemma restore_to_watermark_witness :
  History.restore
    (History.unshift ["typed"%string]
       (History.lock (History.createHistory (Some ["old"%string]))))
  = History.lock (History.createHistory (Some ["old"%string])).
Proof.
  apply (proj1 (proj2 (restore_to_watermark
    (History.createHistory (Some ["old"%string])))) ["old"%string]).
  reflexivity.
Defined.

(** ** What the handlers leave alone *)

Lemma static_fields s s' :
  static s' = static s →
  started s' = started s ∧ closed s' = closed s ∧ didSetError s' = didSetError s ∧
  dataListeners s' = dataListeners s ∧ errorListeners s' = errorListeners s ∧
  attached s' = attached s.
Proof. unfold static. intros [= -> -> -> -> -> ->]. done. Qed.

Lemma frame_refl s : frame s s.
Proof.
  split_and!; [done | |]; intros; exists []; by rewrite app_nil_r.
Qed.

Lemma frame_trans s1 s2 s3 : frame s1 s2 → frame s2 s3 → frame s1 s3.
Proof.
  intros (Hs1 & Hc1 & Hf1) (Hs2 & Hc2 & Hf2).
  destruct (static_fields _ _ Hs1) as (_ & Hcl & _ & Hdl & Hel & _).
  split_and!.
  - congruence.
  - intros Hc. destruct (Hc1 Hc) as (x1 & E1 & F1).
    destruct Hc2 as (x2 & E2 & F2); [congruence|].
    exists (x1 ++ x2). split; [by rewrite E2, E1, app_assoc | by apply Forall_app].
  - intros Hd He. destruct (Hf1 Hd He) as (x1 & E1 & F1).
    destruct Hf2 as (x2 & E2 & F2); [congruence..|].
    exists (x1 ++ x2). split; [by rewrite E2, E1, app_assoc | by apply Forall_app].
Qed.

(** A step that keeps the static part, the calls and the invocations. *)
Lemma frame_same s s' :
  static s' = static s → calls s' = calls s → fired s' = fired s → frame s s'.
Proof.
  intros Hs Hc Hf. split_and!; [done | |]; intros; exists [];
    by rewrite app_nil_r.
Qed.

Lemma frame_resume s : frame s (resume s).
Proof.
  unfold resume. destruct (closed s) eqn:Hc; [apply frame_refl|].
  split_and!; [done | simpl; congruence |].
  intros. exists []. by rewrite app_nil_r.
Qed.

Lemma frame_prompt s : frame s (prompt s).
Proof.
  unfold prompt. destruct (closed s) eqn:Hc; [apply frame_refl|].
  split_and!; [done | simpl; congruence |].
  intros. exists []. by rewrite app_nil_r.
Qed.

Lemma frame_ignore value s : frame s (ignore value s).
Proof.
  unfold ignore. simpl. destruct value.
  - eapply frame_trans; [|apply frame_resume]. by apply frame_same.
  - by apply frame_same.
Qed.

Lemma frame_pause s : frame s (rl_call Pause s).
Proof.
  split_and!; [done | |].
  - intros _. exists [Pause]. split; [done|]. by repeat constructor.
  - intros. exists []. by rewrite app_nil_r.
Qed.

Section Frames.
Context (env : Env).

Lemma static_notify listeners error s :
  static (notify env listeners error s).1 = static s.
Proof.
  revert s. induction listeners as [|l rest IH]; intros s; [done|].
  simpl. destruct l as [|n]; [done|].
  destruct (errorListener env n error); [done|]. by rewrite IH.
Qed.

Lemma calls_notify listeners error s :
  calls (notify env listeners error s).1 = calls s.
Proof.
  revert s. induction listeners as [|l rest IH]; intros s; [done|].
  simpl. destruct l as [|n]; [done|].
  destruct (errorListener env n error); [done|]. by rewrite IH.
Qed.

Lemma frame_notify listeners error s :
  (errorListeners s = [errorHandler] → listeners = [errorHandler]) →
  frame s (notify env listeners error s).1.
Proof.
  intros Hq. split_and!.
  - apply static_notify.
  - intros _. exists []. rewrite app_nil_r. split; [apply calls_notify | constructor].
  - intros _ He. rewrite (Hq He). simpl.
    exists [FError errorHandler error]. split; [done|].
    constructor; [by exists error | constructor].
Qed.

Lemma frame_notifyError error s : frame s (notifyError env error s).1.
Proof. by apply frame_notify. Qed.

Lemma frame_finally s : frame s (finally s).
Proof.
  unfold finally.
  eapply frame_trans; [apply (frame_ignore false)|].
  eapply frame_trans; [apply frame_resume|]. by apply frame_same.
Qed.

Lemma frame_escape e s : frame s (escape e s).
Proof. by apply frame_same. Qed.

Lemma frame_abandon ps s : frame s (abandon ps s).
Proof. by apply frame_same. Qed.

Lemma frame_catch_finally error s : frame s (catch_finally env error s).
Proof.
  unfold catch_finally.
  eapply frame_trans; [apply frame_notifyError|].
  eapply frame_trans; [apply frame_finally | apply frame_escape].
Qed.

Lemma static_invoke listener value s :
  static (invoke env listener value s) = static s.
Proof.
  unfold invoke. destruct (ignores env listener); [|done].
  apply (frame_ignore true (log_fired _ s)).
Qed.

Lemma calls_invoke_closed listener value s :
  closed s = true → calls (invoke env listener value s) = calls s.
Proof.
  intros Hc. unfold invoke. destruct (ignores env listener); [|done].
  unfold ignore, resume. simpl. by rewrite Hc.
Qed.

Lemma closed_invoke listener value s :
  closed (invoke env listener value s) = closed s.
Proof.
  pose proof (static_invoke listener value s) as H.
  by apply static_fields in H as (_ & ? & _).
Qed.

(** With no data listener registered none is called; the lemmas below
    are used on the registered list. *)
Lemma frame_fanout listeners value s :
  (dataListeners s = [] → listeners = []) →
  frame s (fanout env listeners value s).1.
Proof.
  intros Hq. split_and!.
  - clear Hq. revert s. induction listeners as [|l rest IH]; intros s; [done|].
    simpl. destruct (dataListener env l value); simpl.
    + apply static_invoke.
    + rewrite IH. apply static_invoke.
  - intros Hc. exists []. rewrite app_nil_r. split; [|constructor].
    clear Hq. revert s Hc.
    induction listeners as [|l rest IH]; intros s Hc; [done|].
    simpl. destruct (dataListener env l value); simpl.
    + by apply calls_invoke_closed.
    + rewrite IH; [by apply calls_invoke_closed|].
      by rewrite closed_invoke.
  - intros Hd _. rewrite (Hq Hd). simpl. exists []. by rewrite app_nil_r.
Qed.

Lemma frame_fanout_each listeners value s :
  (dataListeners s = [] → listeners = []) →
  frame s (fanout_each env listeners value s).1.
Proof.
  intros Hq. split_and!.
  - clear Hq. revert s. induction listeners as [|l rest IH]; intros s; [done|].
    simpl. destruct (dataListener env l value); simpl; rewrite IH.
    + etrans; [apply frame_notifyError | apply static_invoke].
    + apply static_invoke.
  - intros Hc. exists []. rewrite app_nil_r. split; [|constructor].
    clear Hq. revert s Hc.
    induction listeners as [|l rest IH]; intros s Hc; [done|].
    pose proof (closed_invoke l value s) as Hci.
    pose proof (calls_invoke_closed l value s Hc) as Hcalls.
    simpl. destruct (dataListener env l value); simpl.
    + rewrite IH.
      * unfold notifyError. by rewrite calls_notify.
      * unfold notifyError. pose proof (static_notify
          (errorListeners (invoke env l value s)) e (invoke env l value s)) as Hs.
        apply static_fields in Hs as (_ & Hcn & _). congruence.
    + rewrite IH by congruence. done.
  - intros Hd _. rewrite (Hq Hd). simpl. exists []. by rewrite app_nil_r.
Qed.

Lemma frame_settle_each ws s : frame s (settle_each env ws s).1.
Proof.
  revert s. induction ws as [|w rest IH]; intros s; [apply frame_refl|].
  destruct w as [r|[a|e|]]; simpl; try apply IH.
  eapply frame_trans; [apply frame_notifyError | apply IH].
Qed.

Lemma frame_after_value value s : frame s (after_value env value s).1.
Proof.
  unfold after_value. destruct (variant env).
  - pose proof (frame_fanout (dataListeners s) value s (λ H, H)) as Hf.
    destruct (fanout env (dataListeners s) value s).2 as [[e dropped]|ps];
      simpl; [|done].
    eapply frame_trans; [exact Hf|].
    eapply frame_trans; [apply frame_abandon | apply frame_catch_finally].
  - apply frame_fanout_each. done.
Qed.

Lemma frame_parse_failed error s : frame s (parse_failed env error s).1.
Proof.
  unfold parse_failed. destruct (variant env); simpl;
    [apply frame_catch_finally | apply frame_notifyError].
Qed.

Lemma frame_async_body isParsed text s :
  frame s (async_body env isParsed text s).1.
Proof.
  unfold async_body.
  destruct (if isParsed then None else parser env) as [parse|];
    [|apply frame_after_value].
  destruct (parse text); [apply frame_parse_failed | apply frame_refl].
Qed.

Lemma frame_settle_job j s : frame s (settle_job env j s).1.
Proof.
  destruct j as [[v|e|]|ps|ws|esc]; simpl.
  - apply frame_after_value.
  - apply frame_parse_failed.
  - apply frame_refl.
  - destruct (promise_all ps); simpl;
      [apply frame_finally | apply frame_catch_finally | apply frame_refl].
  - destruct (promise_all _); simpl; apply frame_settle_each.
  - eapply frame_trans; [apply frame_finally | apply frame_escape].
Qed.

Lemma frame_spawn r : frame r.1 (spawn r).
Proof.
  unfold spawn. destruct r.2; [by apply frame_same | apply frame_refl].
Qed.

Lemma frame_handleInput isParsed text throwStartError s :
  frame s (handleInput env isParsed text throwStartError s).1.
Proof.
  unfold handleInput. destruct (throwStartError && negb (started s));
    [apply frame_refl|].
  simpl. destruct (isIgnoring s); simpl; [by apply frame_same|].
  eapply frame_trans; [|apply frame_spawn].
  eapply frame_trans; [|apply frame_async_body].
  eapply frame_trans; [|apply frame_pause]. by apply frame_same.
Qed.

Lemma frame_settle k s : frame s (settle env k s).
Proof.
  unfold settle. destruct (pending s !! k) as [j|]; [|apply frame_refl].
  pose proof (frame_settle_job j s) as Hj.
  destruct (settle_job env j s).2; (eapply frame_trans; [exact Hj|]);
    by apply frame_same.
Qed.

Lemma frame_check s : frame s (check s).
Proof.
  unfold check. generalize (Immediate.tick (immediate s)).2. intros cbs.
  induction cbs as [|cb cbs IH]; simpl; [by apply frame_same|].
  eapply frame_trans; [exact IH | apply frame_prompt].
Qed.

Lemma frame_step s ev : handler_event ev = true → frame s (step env s ev).
Proof.
  destruct ev; simpl; try done; intros _.
  - apply frame_handleInput.
  - apply frame_handleInput.
  - apply frame_prompt.
  - apply frame_ignore.
  - destruct (attached s); [apply frame_handleInput | apply frame_refl].
  - destruct (attached s); [by apply frame_same | apply frame_refl].
  - apply frame_settle.
  - apply frame_check.
Qed.

(** [start] sets [started] and then runs handler code. *)
Lemma frame_start args s :
  started s = false → frame (set_started true s) (start env args s).
Proof.
  intros Hs. unfold start. rewrite Hs.
  destruct args as [[isParsed payload]|].
  - eapply frame_trans; [apply (frame_ignore false) | apply frame_handleInput].
  - eapply frame_trans; [apply (frame_ignore false) | apply frame_prompt].
Qed.
End Frames.

(** ** The listener registry *)

Lemma Forall_splice_found {A} `{EqDecision A} (P : A → Prop) (x : A) (l : list A) :
  Forall P l → Forall P (splice_found x l).
Proof.
  intros Hl. unfold splice_found. destruct (indexOf x l); [|done].
  by apply Forall_delete.
Qed.

Lemma default_iff_no_custom_static s s' :
  static s' = static s → default_iff_no_custom s → default_iff_no_custom s'.
Proof.
  intros Hs. apply static_fields in Hs as (_ & _ & Hd & _ & He & _).
  unfold default_iff_no_custom. by rewrite Hd, He.
Qed.

Lemma default_iff_no_custom_on event listener s :
  default_iff_no_custom s → default_iff_no_custom (on event listener s).
Proof.
  intros Hinv. destruct event; [exact Hinv|].
  destruct Hinv as [[Hd He]|(Hd & Hne & Hall)]; right; unfold on; rewrite Hd; simpl.
  - rewrite He. simpl. split_and!; [done..|]. by repeat constructor.
  - split_and!; [done | by destruct (errorListeners s) |].
    apply Forall_app. split; [done|]. by repeat constructor.
Qed.

Lemma default_iff_no_custom_off event listener s :
  default_iff_no_custom s → default_iff_no_custom (off event listener s).
Proof.
  intros Hinv. destruct event; [exact Hinv|].
  unfold off. destruct Hinv as [[Hd He]|(Hd & Hne & Hall)].
  - rewrite He. simpl. left. by split.
  - destruct (decide _) as [Hlen|Hlen]; simpl.
    + left. apply nil_length_inv in Hlen. by rewrite Hlen.
    + right. simpl. split_and!; [done | | by apply Forall_splice_found].
      intros Hnil. by rewrite Hnil in Hlen.
Qed.

Section Registry.
Context (env : Env).

Lemma default_iff_no_custom_step s ev :
  default_iff_no_custom s → default_iff_no_custom (step env s ev).
Proof.
  intros Hinv. destruct (handler_event ev) eqn:Hev.
  { eapply default_iff_no_custom_static; [|exact Hinv].
    by destruct (frame_step env s ev Hev). }
  destruct ev; try done; simpl.
  - destruct (started s) eqn:Hs; [unfold start; by rewrite Hs|].
    eapply default_iff_no_custom_static;
      [apply (frame_start env args s Hs) | exact Hinv].
  - by apply default_iff_no_custom_on.
  - by apply default_iff_no_custom_off.
  - destruct (attached s); [by left | done].
Qed.

Lemma default_iff_no_custom_run s evs :
  default_iff_no_custom s → default_iff_no_custom (run env s evs).
Proof.
  revert s. induction evs as [|ev evs IH]; intros s Hinv; [done|].
  simpl. by apply IH, default_iff_no_custom_step.
Qed.
End Registry.

Lemma default_iff_no_custom_createCLI rl_history :
  default_iff_no_custom (createCLI rl_history).
Proof. by left. Qed.

Lemma filter_all {A} (P : A → Prop) `{∀ x, Decision (P x)} (l : list A) :
  Forall P l → filter P l = l.
Proof.
  induction 1 as [|x l Hx _ IH]; [done|].
  rewrite filter_cons. by rewrite decide_True, IH.
Qed.

Lemma filter_none {A} (P : A → Prop) `{∀ x, Decision (P x)} (l : list A) :
  Forall (λ x, ¬ P x) l → filter P l = [].
Proof.
  induction 1 as [|x l Hx _ IH]; [done|].
  rewrite filter_cons. by rewrite decide_False, IH.
Qed.

(** C4.  In every state a session reaches, the default handler fills
    exactly one slot of the error listeners when the caller has registered
    none, and no slot otherwise; the first [on('error', fn)] removes it and
    the [off('error', fn)] that removes the last caller listener puts it
    back. *)
Theorem default_handler_iff_no_custom_listener
    (env : Env) (rl_history : option (list string)) (evs : list Event) :
  let s := run env (createCLI rl_history) evs in
  (default_slots s = 1 ↔ customs s = []) ∧
  default_slots s ≤ 1 ∧
  (customs s = [] → ∀ fn, errorListeners (on error_ fn s) = [custom fn]) ∧
  (∀ fn, customs s = [custom fn] → errorListeners (off error_ fn s) = [errorHandler]).
Proof.
  intros s.
  pose proof (default_iff_no_custom_run env _ evs
                (default_iff_no_custom_createCLI rl_history)) as Hinv.
  fold s in Hinv. unfold default_slots, customs.
  destruct Hinv as [[Hd He]|(Hd & Hne & Hall)].
  - rewrite He. split_and!; [done | simpl; lia | |].
    + intros _ fn. unfold on. rewrite Hd. simpl. by rewrite He.
    + intros fn [=].
  - rewrite (filter_all _ _ Hall).
    rewrite (filter_none (λ l, l = errorHandler)) by done.
    split_and!; [split; [done | by intros ?] | simpl; lia | done |].
    intros fn Hfn. unfold off. rewrite Hfn. unfold splice_found. simpl.
    destruct (decide (custom fn = custom fn)); [done | congruence].
Qed.

(** ** [start] *)

Section Started.
Context (env : Env).

Lemma started_start args s : started (start env args s) = true.
Proof.
  destruct (started s) eqn:Hs; [unfold start; by rewrite Hs|].
  destruct (frame_start env args s Hs) as (Hst & _).
  by apply static_fields in Hst as (-> & _).
Qed.

Lemma started_step_other s ev :
  is_start ev = false → started (step env s ev) = started s.
Proof.
  intros Hev. destruct (handler_event ev) eqn:Hh.
  { destruct (frame_step env s ev Hh) as (Hst & _).
    by apply static_fields in Hst as (-> & _). }
  destruct ev; try done; simpl.
  - unfold on. by destruct event, (didSetError s).
  - destruct event; [done|]. unfold off. by destruct (decide _).
  - by destruct (attached s).
Qed.

Lemma started_step s ev : started s = true → started (step env s ev) = true.
Proof.
  intros Hs. destruct (is_start ev) eqn:Hev.
  - destruct ev; try done. apply started_start.
  - by rewrite started_step_other.
Qed.

Lemma started_run s evs : started s = true → started (run env s evs) = true.
Proof.
  revert s. induction evs as [|ev evs IH]; intros s Hs; [done|].
  simpl. by apply IH, started_step.
Qed.

Lemma not_started_run s evs :
  Forall (λ ev, is_start ev = false) evs →
  started (run env s evs) = started s.
Proof.
  revert s. induction evs as [|ev evs IH]; intros s Hevs; [done|].
  apply Forall_cons in Hevs as [Hev Hevs].
  simpl. rewrite IH by done. by apply started_step_other.
Qed.
End Started.

(** C8.  Once [start] has been called, whatever happens in between, a
    further call of [start], with or without arguments, returns the session
    as it is: nothing is prompted, no value processed, no state changed. *)
Theorem start_again_changes_nothing
    (env : Env) (s : Session) (args args' : option (bool * string))
    (evs : list Event) :
  let s1 := run env (start env args s) evs in
  start env args' s1 = s1.
Proof.
  intros s1.
  assert (started s1 = true) as Hs by apply started_run, started_start.
  unfold start. by rewrite Hs.
Qed.

(** C5.  Before [start] has been called, [data] and [input] throw the
    usage error to the caller and leave the session as it was: no listener
    has run, nothing has reached the error listeners. *)
Theorem input_before_start_throws
    (env : Env) (rl_history : option (list string)) (evs : list Event)
    (value : Value) (text : string) :
  Forall (λ ev, is_start ev = false) evs →
  let s := run env (createCLI rl_history) evs in
  data env value s = (s, Some startError) ∧
  input env text s = (s, Some startError) ∧
  fired (data env value s).1 = fired s ∧
  fired (input env text s).1 = fired s.
Proof.
  intros Hevs s.
  assert (started s = false) as Hs.
  { unfold s. by rewrite not_started_run. }
  unfold data, input, handleInput. rewrite Hs. done.
Qed.

Lemma input_before_start_throws_witness :
  let s := run quiet_env (createCLI (Some [])) [On data_ 1; Ignore false] in
  data quiet_env "x" s = (s, Some startError) ∧
  input quiet_env "x" s = (s, Some startError) ∧
  fired (data quiet_env "x" s).1 = fired s ∧
  fired (input quiet_env "x" s).1 = fired s.
Proof.
  apply (input_before_start_throws quiet_env (Some []) [On data_ 1; Ignore false] "x" "x").
  repeat constructor.
Defined.

(** ** Input while the session suppresses *)

Lemma clear_cancels_timer {A} (st : Immediate.t A) :
  Immediate.timer (Immediate.clear st) = None ∧
  ∀ h, Immediate.timer st = Some h → h ∉ (Immediate.queue (Immediate.clear st)).*1.
Proof.
  unfold Immediate.clear. destruct (Immediate.timer st) as [t0|] eqn:Ht; simpl.
  - split; [done|]. intros h [= <-] Hin. by apply unqueue_elem in Hin as [Hne _].
  - split; [done|]. by intros h.
Qed.

(** C6, as the code has it.  While the session suppresses, a line of the
    source, and a value or text given to [data] or [input] after [start],
    is discarded: the callback [timer] points at (the one scheduled last)
    is cancelled, [restore] runs on the history guard, no listener is
    called, no body is begun and the source is not paused. *)
Theorem suppressed_item_is_discarded (env : Env) (s : Session) (ev : Event) :
  isIgnoring s = true →
  arrives s ev →
  let s' := step env s ev in
  Immediate.timer (immediate s') = None ∧
  (∀ h, Immediate.timer (immediate s) = Some h →
        h ∉ (Immediate.queue (immediate s')).*1) ∧
  history s' = History.restore (history s) ∧
  fired s' = fired s ∧
  calls s' = calls s ∧
  pending s' = pending s ∧
  unhandled s' = unhandled s ∧
  isIgnoring s' = true.
Proof.
  intros Hi Harr s'.
  assert (s' = upd_history History.restore (upd_immediate Immediate.clear s)) as ->.
  { unfold s'. destruct ev; try done; simpl in *; unfold data, input, handleInput;
      rewrite Harr; simpl; by rewrite Hi. }
  simpl. destruct (clear_cancels_timer (immediate s)) as [Ht Hq].
  split_and!; done.
Qed.

Lemma suppressed_item_is_discarded_witness :
  let s' := step quiet_env suppressed_before_start (Line "b") in
  Immediate.timer (immediate s') = None ∧
  (∀ h, Immediate.timer (immediate suppressed_before_start) = Some h →
        h ∉ (Immediate.queue (immediate s')).*1) ∧
  history s' = History.restore (history suppressed_before_start) ∧
  fired s' = fired suppressed_before_start ∧
  calls s' = calls suppressed_before_start ∧
  pending s' = pending suppressed_before_start ∧
  unhandled s' = unhandled suppressed_before_start ∧
  isIgnoring s' = true.
Proof.
  apply (suppressed_item_is_discarded quiet_env suppressed_before_start (Line "b"));
    reflexivity.
Defined.

(** C6 as stated fails for a value injected before [start]: the session
    suppresses, [data] throws the usage error, the scheduled callback stays
    pending (and prompts at the next check phase).  It also fails when two
    callbacks are pending: a suppressed line cancels the one [timer]
    points at, and the other still prompts. *)
Lemma data_before_start_cancels_nothing :
  (let s := suppressed_before_start in
   isIgnoring s = true ∧
   data quiet_env "v" s = (s, Some startError) ∧
   Immediate.timer (immediate (step quiet_env s (Data "v"))) = Some 0 ∧
   (0, CallPrompt) ∈ Immediate.queue (immediate (step quiet_env s (Data "v"))) ∧
   calls (run quiet_env s [Data "v"; CheckPhase]) = calls s ++ [Prompt]) ∧
  (let s := suppressed_with_two_prompts in
   isIgnoring s = true ∧ started s = true ∧
   Immediate.queue (immediate (step quiet_env s (Line "c"))) = [(0, CallPrompt)] ∧
   calls (run quiet_env s [Line "c"; CheckPhase]) = calls s ++ [Prompt]).
Proof.
  split; split_and!; try reflexivity. apply list_elem_of_here.
Qed.

(** ** The cleanup after an item *)

Lemma cleaned_up_finally s : cleaned_up (finally s).
Proof.
  unfold cleaned_up, finally, ignore, resume. simpl.
  destruct (closed s) eqn:Hc; simpl; rewrite ?Hc.
  - split_and!; [done..|]. exists (Immediate.next (immediate s)).
    split; [done|]. apply elem_of_app. right. apply list_elem_of_here.
  - split_and!; [done | done | intros _; by rewrite last_snoc |].
    exists (Immediate.next (immediate s)).
    split; [done|]. apply elem_of_app. right. apply list_elem_of_here.
Qed.

Lemma cleaned_up_escape e s : cleaned_up s → cleaned_up (escape e s).
Proof. done. Qed.

Lemma promise_all_settles ps :
  Forall (λ p, p ≠ Never) ps → promise_all ps ≠ Never.
Proof.
  induction 1 as [|p ps Hp _ IH]; [done|].
  simpl. destruct p; [done | done | congruence].
Qed.

Section Cleanup.
Context (env : Env).

Lemma cleaned_up_catch_finally e s : cleaned_up (catch_finally env e s).
Proof. apply cleaned_up_escape, cleaned_up_finally. Qed.

Lemma after_value_ends value s :
  (after_value env value s).2 = None → cleaned_up (after_value env value s).1.
Proof.
  unfold after_value. destruct (variant env); [|done].
  destruct (fanout env (dataListeners s) value s).2 as [[e dropped]|ps]; [|done].
  intros _. apply cleaned_up_catch_finally.
Qed.

Lemma parse_failed_ends e s :
  (parse_failed env e s).2 = None → cleaned_up (parse_failed env e s).1.
Proof.
  unfold parse_failed. destruct (variant env); [|done].
  intros _. apply cleaned_up_catch_finally.
Qed.

Lemma async_body_ends isParsed text s :
  (async_body env isParsed text s).2 = None →
  cleaned_up (async_body env isParsed text s).1.
Proof.
  unfold async_body.
  destruct (if isParsed then None else parser env) as [parse|];
    [|apply after_value_ends].
  destruct (parse text); [apply parse_failed_ends | done].
Qed.

Lemma settle_job_ends j s :
  (settle_job env j s).2 = None → cleaned_up (settle_job env j s).1.
Proof.
  destruct j as [[v|e|]|ps|ws|esc]; simpl.
  - apply after_value_ends.
  - apply parse_failed_ends.
  - done.
  - destruct (promise_all ps); simpl; intros H; try done;
      [apply cleaned_up_finally | apply cleaned_up_catch_finally].
  - by destruct (promise_all _).
  - intros _. apply cleaned_up_escape, cleaned_up_finally.
Qed.

Lemma fanout_settles listeners value s ps :
  settles env →
  (fanout env listeners value s).2 = inr ps → Forall (λ p, p ≠ Never) ps.
Proof.
  intros [_ Hl]. revert s ps. induction listeners as [|l rest IH]; intros s ps; simpl.
  - intros [= <-]. constructor.
  - specialize (Hl l value). destruct (dataListener env l value) as [e|p]; [done|].
    simpl.
    destruct (fanout env rest value (invoke env l value s)).2 as [[e dropped]|ps'] eqn:Hr;
      [done|].
    intros [= <-]. constructor; [congruence | by eapply IH].
Qed.

Lemma fanout_each_settles listeners value s :
  settles env →
  Forall (λ w, wrapper_result w ≠ Never) (fanout_each env listeners value s).2.
Proof.
  intros [_ Hl]. revert s. induction listeners as [|l rest IH]; intros s; simpl;
    [constructor|].
  specialize (Hl l value). destruct (dataListener env l value) as [e|p]; simpl.
  - constructor; [|apply IH]. simpl. by destruct (notifyError env e _).2.
  - constructor; [|apply IH]. simpl. congruence.
Qed.

Lemma settle_each_settles ws s :
  Forall (λ w, wrapper_result w ≠ Never) ws →
  Forall (λ p, p ≠ Never) (wrapper_result <$> (settle_each env ws s).2).
Proof.
  intros Hws. revert s. induction Hws as [|w ws Hw _ IH]; intros s; [constructor|].
  destruct w as [r|[a|e|]]; simpl in *; try (constructor; [done | apply IH]).
  constructor; [|apply IH]. by destruct (notifyError env e s).2.
Qed.

Lemma complete_done n s : complete env n (s, None) = Some s.
Proof. by destruct n. Qed.

Lemma complete_step n j s :
  complete env (S n) (s, Some j) = complete env n (settle_job env j s).
Proof. done. Qed.

Lemma complete_finally esc s n :
  ∃ s', complete env (S n) (s, Some (AwaitFinally esc)) = Some s' ∧ cleaned_up s'.
Proof.
  rewrite complete_step. simpl. rewrite complete_done.
  eexists. split; [reflexivity|]. apply cleaned_up_escape, cleaned_up_finally.
Qed.

Lemma complete_parse_failed e s n :
  ∃ s', complete env (S n) (parse_failed env e s) = Some s' ∧ cleaned_up s'.
Proof.
  unfold parse_failed. destruct (variant env).
  - rewrite complete_done.
    eexists. split; [reflexivity | apply cleaned_up_catch_finally].
  - apply complete_finally.
Qed.

Lemma complete_after_value value s n :
  settles env →
  ∃ s', complete env (S (S n)) (after_value env value s) = Some s' ∧ cleaned_up s'.
Proof.
  intros Hs. unfold after_value. destruct (variant env).
  - destruct (fanout env (dataListeners s) value s).2 as [[e dropped]|ps] eqn:Hf.
    + rewrite complete_done.
      eexists. split; [reflexivity | apply cleaned_up_catch_finally].
    + pose proof (promise_all_settles ps (fanout_settles _ _ _ _ Hs Hf)) as Hp.
      rewrite complete_step. simpl.
      destruct (promise_all ps); [| |done]; rewrite ?complete_done;
        eexists; (split; [reflexivity|]).
      * apply cleaned_up_finally.
      * apply cleaned_up_catch_finally.
  - rewrite complete_step. simpl.
    pose proof (promise_all_settles _
      (settle_each_settles _ (fanout_each env (dataListeners s) value s).1
         (fanout_each_settles (dataListeners s) value s Hs))) as Hp.
    destruct (promise_all _); [| |done]; apply complete_finally.
Qed.
End Cleanup.

(** C7, as the code has it.  However the body of an accepted item ends
    (at once, inside [handleInput], or at a later await; after a failed
    parse, a failed listener, an error listener that throws, or none of
    these), it ends with the cleanup: the session does not suppress, the
    history guard is unlocked, the source is resumed unless it has closed,
    and a prompt is scheduled; and when no promise of the caller's code
    hangs, the body does end, within three awaits. *)
Theorem cleanup_always_runs (env : Env) :
  (∀ isParsed text s,
     (async_body env isParsed text s).2 = None →
     cleaned_up (async_body env isParsed text s).1) ∧
  (∀ j s, (settle_job env j s).2 = None → cleaned_up (settle_job env j s).1) ∧
  (settles env →
   ∀ isParsed text s, ∃ s', process env isParsed text s = Some s' ∧ cleaned_up s').
Proof.
  split_and!.
  - apply async_body_ends.
  - apply settle_job_ends.
  - intros Hs isParsed text s. unfold process, async_body.
    generalize (rl_call Pause (upd_immediate Immediate.clear s)). intros s0.
    destruct (if isParsed then None else parser env) as [parse|] eqn:Hp.
    + assert (parser env = Some parse) as Hparse by (by destruct isParsed).
      pose proof (proj1 Hs parse text Hparse) as Hn.
      destruct (parse text) as [e|[v|e|]]; [| | |done].
      * apply complete_parse_failed.
      * rewrite complete_step. by apply complete_after_value.
      * rewrite complete_step. apply complete_parse_failed.
    + by apply complete_after_value.
Qed.

Lemma handleInput_accepts env isParsed text throwStartError s :
  (throwStartError = true → started s = true) →
  isIgnoring s = false →
  handleInput env isParsed text throwStartError s
  = (spawn (async_body env isParsed text
              (rl_call Pause (upd_immediate Immediate.clear s))), None).
Proof.
  intros Hst Hi. unfold handleInput.
  destruct throwStartError; simpl; rewrite ?Hst by done; simpl; by rewrite Hi.
Qed.

Lemma failing_env_settles v : settles (failing_env v).
Proof.
  split; [by intros parse text [=]|].
  intros listener value. simpl. by destruct (decide (listener = 1)).
Qed.

Lemma cleanup_always_runs_witness :
  ∃ s', process (failing_env SingleCatch) true "x"
          (run (failing_env SingleCatch) (createCLI (Some [])) [On data_ 1; Start None])
        = Some s' ∧ cleaned_up s'.
Proof.
  apply (proj2 (proj2 (cleanup_always_runs (failing_env SingleCatch)))).
  split; [by intros parse text [=]|].
  intros listener value. simpl. by destruct (decide (listener = 1)).
Defined.

(** C7 as stated fails on a closed source: [handleInput] pauses it without
    asking, and [resume] does nothing once [closed] is set.  A value given
    to [data] after the close event, and one under way when the source
    closes, are processed to the end, and the last call on the source is
    not [resume]: it stays paused. *)
Lemma closed_source_is_not_resumed :
  pending (run quiet_env (createCLI (Some [])) [Start None; Close; Data "x"])
  = [AwaitAll []] ∧
  (let s := run quiet_env (createCLI (Some []))
              [Start None; Close; Data "x"; Settle 0; CheckPhase] in
   pending s = [] ∧ isIgnoring s = false ∧
   calls s = [Resume; Prompt; RemoveAllListeners; Pause]) ∧
  (let s := run quiet_env (createCLI (Some []))
              [Start None; Data "x"; Close; Settle 0; CheckPhase] in
   pending s = [] ∧ isIgnoring s = false ∧
   calls s = [Resume; Prompt; Pause; RemoveAllListeners]).
Proof. cbv zeta. repeat split; vm_compute; reflexivity. Qed.

(** ** After the source has closed *)

Section Closed.
Context (env : Env).

Lemma closed_step s ev :
  closed s = true → attached s = false →
  let s' := step env s ev in
  closed s' = true ∧ attached s' = false ∧
  only_pauses (calls s) (calls s') ∧
  (is_on ev = false → unregistered s →
   unregistered s' ∧ only_default (fired s) (fired s')).
Proof.
  intros Hc Ha s'.
  assert (∀ t, frame s t → closed t = true ∧ attached t = false ∧
               only_pauses (calls s) (calls t) ∧
               (unregistered s → unregistered t ∧ only_default (fired s) (fired t)))
    as Hframe.
  { intros t (Hst & Hcalls & Hfired).
    apply static_fields in Hst as (_ & Hcl & _ & Hdl & Hel & Hat).
    split_and!; [congruence | congruence | by apply Hcalls |].
    intros [Hd He]. split; [split; congruence | by apply Hfired]. }
  destruct (handler_event ev) eqn:Hev.
  { destruct (Hframe s' (frame_step env s ev Hev)) as (? & ? & ? & ?). auto. }
  assert (only_pauses (calls s) (calls s)) as Hsame by (exists []; by rewrite app_nil_r).
  assert (only_default (fired s) (fired s)) as Hsamef by (exists []; by rewrite app_nil_r).
  destruct ev; try done; unfold s'; simpl.
  - destruct (started s) eqn:Hs; [unfold start; rewrite Hs; auto|].
    destruct (frame_start env args s Hs) as (Hst & Hcalls & Hfired).
    apply static_fields in Hst as (_ & Hcl & _ & Hdl & Hel & Hat). simpl in *.
    split_and!; [congruence | congruence | by apply Hcalls |].
    intros _ [Hd He]. split; [split; congruence | by apply Hfired].
  - unfold on.
    destruct event, (didSetError s); simpl; refine (conj _ (conj _ (conj _ _))); done.
  - unfold off. destruct event; simpl.
    + refine (conj _ (conj _ (conj _ _))); [done..|].
      intros _ [Hd He]. rewrite Hd. done.
    + destruct (decide _); simpl; (refine (conj _ (conj _ (conj _ _))); [done..|]);
        intros _ [Hd He]; rewrite He in *; done.
  - rewrite Ha. auto.
Qed.

Lemma closed_run s evs :
  closed s = true → attached s = false →
  let s' := run env s evs in
  closed s' = true ∧
  only_pauses (calls s) (calls s') ∧
  (Forall (λ ev, is_on ev = false) evs → unregistered s →
   unregistered s' ∧ only_default (fired s) (fired s')).
Proof.
  revert s. induction evs as [|ev evs IH]; intros s Hc Ha; simpl.
  - split_and!; [done | exists []; by rewrite app_nil_r |].
    intros _ Hu. split; [done|]. exists []. by rewrite app_nil_r.
  - destruct (closed_step s ev Hc Ha) as (Hc1 & Ha1 & (x1 & E1 & F1) & Hq1).
    destruct (IH _ Hc1 Ha1) as (Hc2 & (x2 & E2 & F2) & Hq2).
    split_and!; [done | |].
    + exists (x1 ++ x2). split; [by rewrite E2, E1, app_assoc | by apply Forall_app].
    + intros [Hev Hevs]%Forall_cons Hu.
      destruct (Hq1 Hev Hu) as (Hu1 & y1 & G1 & D1).
      destruct (Hq2 Hevs Hu1) as (Hu2 & y2 & G2 & D2).
      split; [done|]. exists (y1 ++ y2).
      split; [by rewrite G2, G1, app_assoc | by apply Forall_app].
Qed.
End Closed.

(** C9, as the code has it.  The [close] handler empties the data
    listeners, leaves the default handler as the only error listener,
    empties the bound history and detaches the source's listeners.  From
    then on the source is never resumed or prompted again; and as long as
    the caller registers no listener again, none of the caller's listeners
    is called: an error of a body still under way reaches the default
    handler only. *)
Theorem after_close (env : Env) (s : Session) (evs : list Event) :
  let s1 := on_close s in
  let s2 := run env s1 evs in
  (dataListeners s1 = [] ∧ errorListeners s1 = [errorHandler] ∧
   History.history (history s1) = (λ _, []) <$> History.history (history s) ∧
   attached s1 = false ∧ last (calls s1) = Some RemoveAllListeners) ∧
  (∃ extra, calls s2 = calls s1 ++ extra ∧
            Forall (λ c, c ≠ Resume ∧ c ≠ Prompt) extra) ∧
  (Forall (λ ev, is_on ev = false) evs →
   ∃ extra, fired s2 = fired s1 ++ extra ∧ Forall default_fired extra).
Proof.
  intros s1 s2.
  destruct (closed_run env s1 evs) as (_ & (x & E & F) & Hq); [done..|].
  refine (conj _ (conj _ _)).
  - split_and!; try done.
    + unfold s1. simpl. unfold History.clear.
      destruct (History.history (history s)) eqn:Hh; simpl; [done | by rewrite Hh].
    + unfold s1. simpl. by rewrite last_snoc.
  - exists x. split; [done|]. eapply Forall_impl; [exact F|].
    by intros c ->.
  - intros Hevs. by destruct (Hq Hevs) as (_ & ?).
Qed.

Lemma after_close_witness :
  ∃ extra,
    fired (run (failing_env SingleCatch)
             (on_close (run (failing_env SingleCatch) (createCLI (Some ["old"]))
                          [On data_ 1; On error_ 7; Start None]))
             [Data "x"; Settle 0; CheckPhase; Ignore true])
    = fired (on_close (run (failing_env SingleCatch) (createCLI (Some ["old"]))
                         [On data_ 1; On error_ 7; Start None])) ++ extra
    ∧ Forall default_fired extra.
Proof.
  apply (proj2 (proj2 (after_close (failing_env SingleCatch)
    (run (failing_env SingleCatch) (createCLI (Some ["old"]))
       [On data_ 1; On error_ 7; Start None])
    [Data "x"; Settle 0; CheckPhase; Ignore true]))).
  repeat constructor.
Defined.

(** C9 as stated fails: after the close event, [data] pauses the source
    again, and a listener registered after the close event is called. *)
Lemma closed_source_is_paused_again :
  let s1 := run quiet_env (createCLI (Some [])) [Start None; Close] in
  closed s1 = true ∧
  calls (run quiet_env s1 [Data "x"]) = calls s1 ++ [Pause] ∧
  fired (run quiet_env s1 [On data_ 1; Data "x"]) = fired s1 ++ [FData 1 "x"].
Proof. split_and!; reflexivity. Qed.

(** ** A new session *)

Lemma prompts_only_prompt (cbs : list (nat * Callback)) (s : Session) :
  let s' := foldr (λ _ acc, prompt acc) s cbs in
  started s' = started s ∧ isIgnoring s' = isIgnoring s ∧ pending s' = pending s ∧
  fired s' = fired s ∧ history s' = history s ∧
  (Pause ∉ calls s → Pause ∉ calls s').
Proof.
  induction cbs as [|cb cbs IH]; simpl; [done|].
  destruct IH as (H1 & H2 & H3 & H4 & H5 & H6).
  unfold prompt. destruct (closed _); [done|]. simpl.
  split_and!; try done.
  intros Hn [Hin|Hin]%elem_of_app; [by apply H6 in Hin|].
  by apply list_elem_of_singleton in Hin.
Qed.

Section Created.
Context (env : Env).

Lemma suppressed_since_creation_step bound s ev :
  keeps_suppressed ev = true →
  suppressed_since_creation bound s →
  suppressed_since_creation bound (step env s ev).
Proof.
  intros Hev (Hst & Hi & Hp & Hf & Hc & Hh).
  destruct ev as [args|v|t|  |value|event l|event l|t|h| |k| ]; try done; simpl.
  - unfold data, handleInput. rewrite Hst. done.
  - unfold input, handleInput. rewrite Hst. done.
  - unfold prompt. destruct (closed s); [done|].
    split_and!; try done. simpl.
    intros [Hin|Hin]%elem_of_app; [done|]. by apply list_elem_of_singleton in Hin.
  - destruct value; [|done]. unfold ignore, resume. simpl.
    assert (bound = true →
            is_Some (History.history (History.lock (history s))) ∧
            (-1 < History.lockLength (History.lock (history s)))%Z) as Hl.
    { intros Hb. destruct (Hh Hb) as [[h0 Hsome] _].
      unfold History.lock. rewrite Hsome. simpl. split; [by eexists | lia]. }
    destruct (closed s); split_and!; try done. simpl.
    intros [Hin|Hin]%elem_of_app; [done|]. by apply list_elem_of_singleton in Hin.
  - unfold on. by destruct event, (didSetError s).
  - unfold off. destruct event; [done|]. by destruct (decide _).
  - destruct (attached s); [|done].
    unfold handleInput. simpl. rewrite Hi. simpl.
    split_and!; try done. intros Hb. destruct (Hh Hb) as [[h0 Hsome] Hlock].
    simpl. unfold History.restore. rewrite Hsome.
    rewrite bool_decide_eq_true_2 by done. simpl. split; [by eexists | done].
  - destruct (attached s); [|done].
    split_and!; try done. intros Hb. destruct (Hh Hb) as [_ Hlock].
    simpl. split; [by eexists | done].
  - unfold settle. by rewrite Hp.
  - unfold check.
    destruct (prompts_only_prompt (Immediate.tick (immediate s)).2
                (upd_immediate (λ _, (Immediate.tick (immediate s)).1) s))
      as (H1 & H2 & H3 & H4 & H5 & H6).
    simpl in H1, H2, H3, H4, H5, H6.
    split_and!; [congruence.. | by apply H6 |]. by rewrite H5.
Qed.

Lemma suppressed_since_creation_run bound s evs :
  Forall (λ ev, keeps_suppressed ev = true) evs →
  suppressed_since_creation bound s →
  suppressed_since_creation bound (run env s evs).
Proof.
  revert s. induction evs as [|ev evs IH]; intros s Hevs Hs; [done|].
  apply Forall_cons in Hevs as [Hev Hevs].
  simpl. by apply IH, suppressed_since_creation_step.
Qed.
End Created.

Lemma suppressed_since_creation_createCLI rl_history :
  suppressed_since_creation (bool_decide (is_Some rl_history)) (createCLI rl_history).
Proof.
  unfold suppressed_since_creation, createCLI, ignore, resume. simpl.
  split_and!; try done.
  - intros Hin. apply list_elem_of_singleton in Hin. done.
  - intros [h ->]%bool_decide_eq_true. simpl. split; [by eexists | lia].
Qed.

(** C10, as the code has it.  [createCLI] returns a session that
    suppresses; its history guard is locked when the source has a history
    array.  Until [start], [ignore(false)] or the close event the session
    goes on suppressing (and the guard stays locked): a line that arrives
    is discarded, no listener is called, the source is not paused and no
    body is under way. *)
Theorem created_suppressing
    (env : Env) (rl_history : option (list string)) (evs : list Event) :
  Forall (λ ev, keeps_suppressed ev = true) evs →
  let s0 := createCLI rl_history in
  let s := run env s0 evs in
  isIgnoring s0 = true ∧
  History.lockLength (history s0)
  = match rl_history with
    | Some h => Z.of_nat (length h)
    | None => (-1)%Z
    end ∧
  isIgnoring s = true ∧
  (is_Some rl_history → (-1 < History.lockLength (history s))%Z) ∧
  fired s = [] ∧
  (Pause ∉ calls s) ∧
  pending s = [].
Proof.
  intros Hevs s0 s.
  destruct (suppressed_since_creation_run env _ _ evs Hevs
              (suppressed_since_creation_createCLI rl_history))
    as (Hst & Hi & Hp & Hf & Hc & Hh).
  split_and!; try done.
  intros Hsome. by apply Hh, bool_decide_eq_true.
Qed.

Lemma created_suppressing_witness :
  let s := run quiet_env (createCLI (Some ["old"]))
             [On data_ 1; HistoryChanged ["typed"; "old"]; Line "typed"; CheckPhase] in
  isIgnoring (createCLI (Some ["old"])) = true ∧
  History.lockLength (history (createCLI (Some ["old"]))) = 1%Z ∧
  isIgnoring s = true ∧
  (is_Some (Some ["old"]) → (-1 < History.lockLength (history s))%Z) ∧
  fired s = [] ∧
  (Pause ∉ calls s) ∧
  pending s = [].
Proof.
  apply (created_suppressing quiet_env (Some ["old"])
           [On data_ 1; HistoryChanged ["typed"; "old"]; Line "typed"; CheckPhase]).
  repeat constructor.
Defined.

(** C10 as stated fails twice: a source without a history array leaves the
    guard unlocked, and the close event ends the suppression without
    [start] or [ignore(false)]. *)
Lemma created_unlocked_and_close_unsuppresses :
  History.lockLength (history (createCLI None)) = (-1)%Z ∧
  isIgnoring (run quiet_env (createCLI (Some [])) [Close]) = false.
Proof. split; reflexivity. Qed.

(** ** Errors of data listeners *)

Lemma data_calls_app fs gs : data_calls (fs ++ gs) = data_calls fs ++ data_calls gs.
Proof. apply omap_app. Qed.

Section CatchEach.
Context (env : Env).

Lemma fired_notify listeners error s :
  ∃ extra, fired (notify env listeners error s).1 = fired s ++ extra ∧
           data_calls extra = [] ∧
           (∀ first rest, listeners = first :: rest → FError first error ∈ extra).
Proof.
  revert s. induction listeners as [|l rest IH]; intros s; simpl.
  { exists []. by rewrite app_nil_r. }
  assert (∃ extra, fired (notify env rest error (log_fired (FError l error) s)).1
                   = fired s ++ extra ∧ data_calls extra = [] ∧
                     FError l error ∈ extra) as (x & E & D & Hin).
  { destruct (IH (log_fired (FError l error) s)) as (x & E & D & _).
    exists (FError l error :: x). simpl in E.
    rewrite E, <- app_assoc. split_and!; [done | done | apply list_elem_of_here]. }
  assert (∃ extra, fired (log_fired (FError l error) s) = fired s ++ extra ∧
                   data_calls extra = [] ∧ FError l error ∈ extra) as Hone.
  { exists [FError l error]. split_and!; [done | done | apply list_elem_of_here]. }
  destruct l as [|n]; [|destruct (errorListener env n error)].
  - destruct Hone as (y & ? & ? & ?). exists y. split_and!; [done..|]. by intros ? ? [= <- _].
  - destruct Hone as (y & ? & ? & ?). exists y. split_and!; [done..|]. by intros ? ? [= <- _].
  - exists x. split_and!; [done..|]. by intros ? ? [= <- _].
Qed.

Lemma fired_invoke listener value s :
  fired (invoke env listener value s) = fired s ++ [FData listener value].
Proof.
  unfold invoke. destruct (ignores env listener); [|done].
  unfold ignore, resume. simpl. by destruct (closed s).
Qed.

Lemma errorListeners_invoke listener value s :
  errorListeners (invoke env listener value s) = errorListeners s.
Proof.
  pose proof (static_invoke env listener value s) as H.
  by apply static_fields in H as (_ & _ & _ & _ & ? & _).
Qed.

Lemma errorListeners_notifyError error s :
  errorListeners (notifyError env error s).1 = errorListeners s.
Proof.
  pose proof (static_notify env (errorListeners s) error s) as H.
  by apply static_fields in H as (_ & _ & _ & _ & ? & _).
Qed.

(** Every listener is called, whatever the others do; what one throws
    reaches the error listeners at once, and what one rejects with is kept
    by its wrapper. *)
Lemma fanout_each_calls_all listeners value s :
  let r := fanout_each env listeners value s in
  errorListeners r.1 = errorListeners s ∧
  ∃ extra,
    fired r.1 = fired s ++ extra ∧
    data_calls extra = (λ l, (l, value)) <$> listeners ∧
    (∀ l e first rest,
       l ∈ listeners → dataListener env l value = Throws e →
       errorListeners s = first :: rest → FError first e ∈ extra) ∧
    (∀ l e,
       l ∈ listeners → dataListener env l value = Returns (Rejected e) →
       Waiting (Rejected e) ∈ r.2).
Proof.
  revert s. induction listeners as [|l rest IH]; intros s; simpl.
  { split; [done|]. exists []. rewrite app_nil_r.
    split_and!; [done | done | |]; by intros ? ? ? ? ?%elem_of_nil || by intros ? ? ?%elem_of_nil. }
  pose proof (fired_invoke l value s) as Hinv.
  pose proof (errorListeners_invoke l value s) as Hel.
  destruct (dataListener env l value) as [e|p] eqn:Hl; simpl.
  - destruct (fired_notify (errorListeners (invoke env l value s)) e (invoke env l value s))
      as (x & Ex & Dx & Hx).
    destruct (IH (notifyError env e (invoke env l value s)).1) as (He' & y & Ey & Dy & Hty & Hry).
    rewrite errorListeners_notifyError, Hel in He'.
    split; [done|]. exists ([FData l value] ++ x ++ y). split_and!.
    + rewrite Ey. unfold notifyError. rewrite Ex, Hinv. by rewrite <- !app_assoc.
    + rewrite !data_calls_app, Dx, Dy. done.
    + intros l' e' first rest' [->|Hin]%elem_of_cons Hl' Hfirst.
      * rewrite Hl in Hl'. injection Hl' as <-.
        rewrite !elem_of_app. right. left. eapply Hx. by rewrite Hel.
      * rewrite !elem_of_app. right. right. eapply Hty; [done..|].
        by rewrite errorListeners_notifyError, Hel.
    + intros l' e' [->|Hin]%elem_of_cons Hl'; [congruence|].
      apply list_elem_of_further. by eapply Hry.
  - destruct (IH (invoke env l value s)) as (He' & y & Ey & Dy & Hty & Hry).
    rewrite Hel in He'. split; [done|]. exists ([FData l value] ++ y). split_and!.
    + by rewrite Ey, Hinv, <- app_assoc.
    + by rewrite data_calls_app, Dy.
    + intros l' e' first rest' [->|Hin]%elem_of_cons Hl' Hfirst; [congruence|].
      rewrite elem_of_app. right. eapply Hty; [done..|]. by rewrite Hel.
    + intros l' e' [->|Hin]%elem_of_cons Hl'.
      * rewrite Hl in Hl'. injection Hl' as ->. apply list_elem_of_here.
      * apply list_elem_of_further. by eapply Hry.
Qed.

(** When the promises settle, every rejection reaches the error listeners,
    and no data listener is called a second time. *)
Lemma settle_each_routes_all ws s :
  ∃ extra,
    fired (settle_each env ws s).1 = fired s ++ extra ∧
    data_calls extra = [] ∧
    (∀ e first rest,
       Waiting (Rejected e) ∈ ws → errorListeners s = first :: rest →
       FError first e ∈ extra).
Proof.
  revert s. induction ws as [|w rest IH]; intros s.
  { exists []. rewrite app_nil_r. split_and!; [done..|]. by intros ? ? ? ?%elem_of_nil. }
  destruct w as [r|[a|e|]]; simpl.
  - destruct (IH s) as (x & E & D & H). exists x. split_and!; [done..|].
    intros e first rest0 [?|Hin]%elem_of_cons Hfirst; [done | by eapply H].
  - destruct (IH s) as (x & E & D & H). exists x. split_and!; [done..|].
    intros e first rest0 [?|Hin]%elem_of_cons Hfirst; [done | by eapply H].
  - destruct (fired_notify (errorListeners s) e s) as (x & Ex & Dx & Hx).
    destruct (IH (notifyError env e s).1) as (y & Ey & Dy & Hy).
    exists (x ++ y). split_and!.
    + rewrite Ey. unfold notifyError. by rewrite Ex, app_assoc.
    + by rewrite data_calls_app, Dx, Dy.
    + intros e' first rest0 [Heq|Hin]%elem_of_cons Hfirst; rewrite elem_of_app.
      * injection Heq as Heq. subst e'. left. by eapply Hx.
      * right. eapply Hy; [done|]. by rewrite errorListeners_notifyError.
  - destruct (IH s) as (x & E & D & H). exists x. split_and!; [done..|].
    intros e first rest0 [?|Hin]%elem_of_cons Hfirst; [done | by eapply H].
Qed.
End CatchEach.

(** The later variant does what C2 says: for an item that reaches the
    listeners, every data listener is called once, and every error one of
    them throws or rejects with is given to the error listeners. *)
Lemma catch_each_runs_all_and_routes_all (env : Env) (value : Value) (s : Session) :
  let r := fanout_each env (dataListeners s) value s in
  let r' := settle_each env r.2 r.1 in
  ∃ extra,
    fired r'.1 = fired s ++ extra ∧
    data_calls extra = (λ l, (l, value)) <$> dataListeners s ∧
    ∀ l e first rest,
      l ∈ dataListeners s →
      dataListener env l value = Throws e ∨ dataListener env l value = Returns (Rejected e) →
      errorListeners s = first :: rest →
      FError first e ∈ extra.
Proof.
  intros r r'.
  destruct (fanout_each_calls_all env (dataListeners s) value s)
    as (Hel & x & Ex & Dx & Hthrow & Hreject).
  destruct (settle_each_routes_all env r.2 r.1) as (y & Ey & Dy & Hy).
  exists (x ++ y). split_and!.
  - unfold r'. rewrite Ey. unfold r. by rewrite Ex, app_assoc.
  - by rewrite data_calls_app, Dx, Dy, app_nil_r.
  - intros l e first rest Hin [Hl|Hl] Hfirst; rewrite elem_of_app.
    + left. by eapply Hthrow.
    + right. eapply Hy; [by eapply Hreject|]. unfold r. by rewrite Hel.
Qed.

(** C2 on [cli.ts]: when the first of two data listeners throws, the
    second is never called; when both reject, only the first rejection
    reaches the error listener.  The later variant calls both and hands
    over both errors. *)
Theorem single_catch_loses_listeners_and_errors :
  fired (run (failing_env SingleCatch) (two_listeners (failing_env SingleCatch))
           [Data "x"; Settle 0; CheckPhase])
  = [FData 1 "x"; FError (custom 7) "boom"] ∧
  fired (run (failing_env CatchEach) (two_listeners (failing_env CatchEach))
           [Data "x"; Settle 0; Settle 0; CheckPhase])
  = [FData 1 "x"; FError (custom 7) "boom"; FData 2 "x"] ∧
  fired (run (rejecting_env SingleCatch) (two_listeners (rejecting_env SingleCatch))
           [Data "x"; Settle 0; CheckPhase])
  = [FData 1 "x"; FData 2 "x"; FError (custom 7) "first"] ∧
  fired (run (rejecting_env CatchEach) (two_listeners (rejecting_env CatchEach))
           [Data "x"; Settle 0; Settle 0; CheckPhase])
  = [FData 1 "x"; FData 2 "x"; FError (custom 7) "first"; FError (custom 7) "second"].
Proof. split_and!; reflexivity. Qed.
